(** * A shallow embedding of hyperion's exponential-family base class
    ([hyperion/pdfs/core/exp_family.py]) and of the PLDA + S-Norm trial
    scoring script ([egs/sre21-av-a/v1.16k/steps_be/eval-be-plda-snorm-v1.py]).

    Real numbers are modelled by exact rationals ([Qc], canonical rationals,
    so that equality is Leibniz equality); floating-point rounding is not
    modelled.  NumPy arrays live in a heap: an [ndarray] is a matrix with a
    fixed number of columns, and a Python reference to a row-slice
    [x[i1:i2, :]] is a [view] (location, first row, number of rows), so
    in-place updates through a view are visible through every alias. *)

From Stdlib Require Import String QArith Qcanon.
From Stdlib Require Import List Arith Lia Bool Sorted NArith.
Import ListNotations.
Open Scope nat_scope.

(** ** Python exceptions raised by the modelled code *)
Inductive exn :=
| UnboundLocalError
| ValueError
| NotImplementedError
| ZeroDivisionError
| IndexError.

(** ** NumPy data *)
Definition vec := list Qc.
Definition mat := list vec.

Record ndarray := mkArray { ncols : nat; data : mat }.
Definition store := list ndarray.

(** A row slice [a[voff : voff + vlen, :]] of the array at [vloc]. *)
Record view := mkView { vloc : nat; voff : nat; vlen : nat }.

(** The attributes [self.eta] and [self.A] of an [ExpFamily] object. *)
Record params := mkParams { eta : vec; A : Qc }.

(** The mutable world: the heap of arrays and the model object. *)
Record world := mkWorld { heap : store; self : params }.

(** ** A state and exception monad *)
Definition M (T : Type) := world -> exn + (T * world).

Definition ret {T} (t : T) : M T := fun w => inr (t, w).
Definition bind {T U} (m : M T) (k : T -> M U) : M U :=
  fun w => match m w with
           | inl e => inl e
           | inr (t, w') => k t w'
           end.
Definition raise {T} (e : exn) : M T := fun _ => inl e.

Notation "x <- m ;; k" := (bind m (fun x => k))
  (at level 61, m at next level, right associativity).
Notation "' p <- m ;; k" := (bind m (fun q => match q with p => k end))
  (at level 61, p pattern, m at next level, right associativity).

Fixpoint set_nth {T} (n : nat) (x : T) (l : list T) : list T :=
  match n, l with
  | _, [] => []
  | 0, _ :: l' => x :: l'
  | S n', y :: l' => y :: set_nth n' x l'
  end.

(** Rows [off .. off + length m - 1] of [d] replaced by [m]. *)
Definition splice (off : nat) (m d : mat) : mat :=
  firstn off d ++ m ++ skipn (off + length m) d.

(** Reading [u] (its number of columns and its rows). *)
Definition read_view (v : view) : M (nat * mat) := fun w =>
  match nth_error (heap w) (vloc v) with
  | Some a => inr ((ncols a, firstn (vlen v) (skipn (voff v) (data a))), w)
  | None => inl IndexError
  end.

(** In-place assignment [u[...] = m] through a view. *)
Definition write_view (v : view) (m : mat) : M unit := fun w =>
  match nth_error (heap w) (vloc v) with
  | Some a =>
      inr (tt, mkWorld (set_nth (vloc v) (mkArray (ncols a) (splice (voff v) m (data a)))
                                (heap w))
                       (self w))
  | None => inl IndexError
  end.

(** ** Vector arithmetic *)
Fixpoint vadd (u v : vec) : vec :=
  match u, v with
  | a :: u', b :: v' => (a + b)%Qc :: vadd u' v'
  | _, _ => []
  end.

Definition zeros (d : nat) : vec := repeat 0%Qc d.

(** [np.sum(m, axis=0)] for an [n x d] matrix. *)
Definition colsum (d : nat) (m : mat) : vec := fold_right vadd (zeros d) m.

(** [np.sum(w)] *)
Definition sum (w : list Qc) : Qc := fold_right Qcplus 0%Qc w.

(** [np.inner] of two 1-d arrays. *)
Fixpoint dot (u v : vec) : Qc :=
  match u, v with
  | a :: u', b :: v' => (a * b + dot u' v')%Qc
  | _, _ => 0%Qc
  end.

Definition inner (u v : vec) : M Qc :=
  if length u =? length v then ret (dot u v) else raise ValueError.

(** [np.inner] of a 2-d array of [d] columns with a 1-d array: the last
    dimensions must agree (also when there are no rows); one product per row. *)
Definition inner_mat (d : nat) (m : mat) (v : vec) : M vec :=
  if d =? length v then ret (map (fun r => dot r v) m) else raise ValueError.

Definition qc_of_nat (n : nat) : Qc := Q2Qc (inject_Z (Z.of_nat n)).

(** An integer literal as a rational. *)
Definition qz (z : Z) : Qc := Q2Qc (inject_Z z).

(** [m * w[:, None]] with NumPy broadcasting: one weight per row, or a single
    weight broadcast to every row; any other shape is a broadcast error. *)
Definition scale_rows (w : list Qc) (m : mat) : option mat :=
  if length w =? length m then
    Some (map (fun '(r, wi) => map (fun a => (a * wi)%Qc) r) (combine m w))
  else match w with
       | [w0] => Some (map (map (fun a => (a * w0)%Qc)) m)
       | _ => None
       end.

(** ** ExpFamily *)

(** [compute_suff_stats(self, x): return x] -- the identity: the result is the
    very same array object as [x]. *)
Definition compute_suff_stats (x : view) : view := x.

(** [logh(self, x): return 0] *)
Definition logh (x : view) : Qc := 0%Qc.

(** [accum_logh] *)
Definition accum_logh (x : view) (sample_weights : option (list Qc)) : Qc :=
  match sample_weights with
  | None => logh x
  | Some w => sum (map (fun wi => (wi * logh x)%Qc) w)
  end.

(** [_accum_suff_stats_1batch] *)
Definition accum_suff_stats_1batch (x : view) (u_x : option view)
    (sample_weights : option (list Qc)) : M (Qc * vec) :=
  let u := match u_x with None => compute_suff_stats x | Some u => u end in
  '(_, m) <- read_view u ;;
  N <- match sample_weights with
       | None => ret (qc_of_nat (length m))
       | Some w =>
           match scale_rows w m with
           | None => raise ValueError
           | Some m' => _ <- write_view u m' ;; ret (sum w)
           end
       end ;;
  '(d, m2) <- read_view u ;;
  ret (N, colsum d m2).

(** [xrange(0, n, b)] (a zero step raises [ValueError]). *)
Fixpoint range_from (fuel i n b : nat) : list nat :=
  match fuel with
  | 0 => []
  | S f => if i <? n then i :: range_from f (i + b) n b else []
  end.

Definition xrange (n b : nat) : M (list nat) :=
  if b =? 0 then raise ValueError else ret (range_from n 0 n b).

(** The loop of [_accum_suff_stats_nbatches]; [acc] holds the local variables
    [N] and [u_x], [None] while they are unbound. *)
Fixpoint nbatches_loop (x : view) (sample_weights : option (list Qc)) (batch_size : nat)
    (idx : list nat) (acc : option (Qc * vec)) : M (option (Qc * vec)) :=
  match idx with
  | [] => ret acc
  | i1 :: rest =>
      let i2 := Nat.min (i1 + batch_size) (vlen x) in
      let x_i := mkView (vloc x) (voff x + i1) (i2 - i1) in
      let sw_i := option_map (fun w => firstn (i2 - i1) (skipn i1 w)) sample_weights in
      '(N_i, u_x_i) <- accum_suff_stats_1batch x_i None sw_i ;;
      acc' <- (if i1 =? 0 then ret (Some (N_i, u_x_i))
               else match acc with
                    | None => raise UnboundLocalError
                    | Some (N, u_x) => ret (Some ((N + N_i)%Qc, vadd u_x u_x_i))
                    end) ;;
      nbatches_loop x sample_weights batch_size rest acc'
  end.

(** [_accum_suff_stats_nbatches]: [return N, u_x] with unbound locals raises. *)
Definition accum_suff_stats_nbatches (x : view) (sample_weights : option (list Qc))
    (batch_size : nat) : M (Qc * vec) :=
  idx <- xrange (vlen x) batch_size ;;
  acc <- nbatches_loop x sample_weights batch_size idx None ;;
  match acc with
  | None => raise UnboundLocalError
  | Some p => ret p
  end.

(** [accum_suff_stats] *)
Definition accum_suff_stats (x : view) (u_x : option view)
    (sample_weights : option (list Qc)) (batch_size : option nat) : M (Qc * vec) :=
  match u_x, batch_size with
  | None, Some b => accum_suff_stats_nbatches x sample_weights b
  | _, _ => accum_suff_stats_1batch x u_x sample_weights
  end.

(** [Estep] *)
Definition Estep (x : view) (u_x : option view) (sample_weights : option (list Qc))
    (batch_size : option nat) : M (Qc * vec) :=
  accum_suff_stats x u_x sample_weights batch_size.

Definition get_self : M params := fun w => inr (self w, w).

(** [elbo] (the defaults of the source are [u_x=None, N=1, logh=None,
    sample_weights=None, batch_size=None]). *)
Definition elbo (x : view) (u_x : option vec) (N : Qc) (logh0 : option Qc)
    (sample_weights : option (list Qc)) (batch_size : option nat) : M Qc :=
  '(N, u) <- match u_x with
             | None => accum_suff_stats x None sample_weights batch_size
             | Some u => ret (N, u)
             end ;;
  let lh := match logh0 with
            | None => accum_logh x sample_weights
            | Some l => l
            end in
  p <- get_self ;;
  ip <- inner u (eta p) ;;
  ret (lh + ip - N * A p)%Qc.

(** [eval_llk_nat] *)
Definition eval_llk_nat (x : view) (u_x : option view) : M vec :=
  let u := match u_x with None => compute_suff_stats x | Some u => u end in
  '(d, m) <- read_view u ;;
  p <- get_self ;;
  ip <- inner_mat d m (eta p) ;;
  ret (map (fun a => (logh x + a - A p)%Qc) ip).

Section ExpFamilyDriver.

(** The abstract [Mstep] of a concrete family: it sets [self.eta], [self.A]. *)
Variable Mstep : Qc -> vec -> params -> params.

(** [eval_llk_std] of a concrete family. *)
Variable eval_llk_std : view -> M vec.

Definition Mstep_call (N : Qc) (u_x : vec) : M unit :=
  fun w => inr (tt, mkWorld (heap w) (Mstep N u_x (self w))).

(** [eval_llk] *)
Definition eval_llk (x : view) (u_x : option view) (mode : string) : M vec :=
  if String.eqb mode "nat" then eval_llk_nat x u_x else eval_llk_std x.

(** [fit]: one E-step, one M-step, the training ELBO, and the validation
    ELBO when [x_val] is given. *)
Definition fit (x : view) (sample_weights : option (list Qc)) (x_val : option view)
    (sample_weights_val : option (list Qc)) (batch_size : option nat) : M (list Qc) :=
  '(N, u_x) <- Estep x None sample_weights batch_size ;;
  _ <- Mstep_call N u_x ;;
  e <- elbo x (Some u_x) N None None None ;;
  let r := [e; (e / N)%Qc] in
  match x_val with
  | None => ret r
  | Some xv =>
      '(Nv, uv) <- Estep xv None sample_weights_val batch_size ;;
      ev <- elbo xv (Some uv) Nv None None None ;;
      ret (r ++ [ev; (ev / Nv)%Qc])
  end.

End ExpFamilyDriver.

(** The static parameter conversions of the base class. *)
Section StaticConversions.

Variable std_params : Type.

Definition compute_A_nat (eta : vec) : exn + Qc := inl NotImplementedError.
Definition compute_A_std (params : std_params) : exn + Qc := inl NotImplementedError.
Definition compute_eta (param : std_params) : exn + vec := inl NotImplementedError.
Definition compute_std (eta : vec) : exn + std_params := inl NotImplementedError.

End StaticConversions.

(** ** The PLDA + S-Norm scoring script *)
Module Pipeline.

(** [np.unique(l, return_inverse=True)]: the sorted distinct values and, for
    every element, its index among them. *)
Fixpoint insert_uniq (s : string) (l : list string) : list string :=
  match l with
  | [] => [s]
  | h :: t =>
      match String.compare s h with
      | Lt => s :: l
      | Eq => l
      | Gt => h :: insert_uniq s t
      end
  end.

Definition unique (l : list string) : list string := fold_right insert_uniq [] l.

Fixpoint index_of (s : string) (l : list string) : nat :=
  match l with
  | [] => 0
  | h :: t => if String.eqb s h then 0 else S (index_of s t)
  end.

Definition unique_inverse (l : list string) : list string * list nat :=
  let u := unique l in (u, map (fun s => index_of s u) l).

(** [TrialScores(model_set, seg_set, scores)], the object written by [save_txt]. *)
Record trial_scores := mkTrialScores
  { model_set : list string; seg_set : list string; scores : mat }.

Section EvalPLDA.

(** The loaded PLDA model ([model.llr_Nvs1], [model.llr_1vs1]) and
    [AdaptSNorm(nbest, nbest_discard).predict]. *)
Variable llr_Nvs1 : mat -> mat -> string -> list nat -> mat.
Variable llr_1vs1 : mat -> mat -> mat.
Variable snorm_predict : nat -> nat -> mat -> mat -> mat -> mat.

(** [eval_plda], from the data returned by the readers ([tdr.read()] gives
    [x_e, x_t, enroll, ndx]; [vr.read()] gives [x_coh]) to the scores object
    that is saved.  Timing and logging are left out, except the division
    [dt / num_trials], which raises [ZeroDivisionError] when [num_trials = 0]. *)
Definition eval_plda (x_e x_t : mat) (enroll : list string) (ndx_seg_set : list string)
    (x_coh : mat) (coh_nbest coh_nbest_discard : nat) (pool_method : string)
    : exn + trial_scores :=
  let '(enroll_u, ids_e) := unique_inverse enroll in
  let scores0 := llr_Nvs1 x_e x_t pool_method ids_e in
  let num_trials := length enroll_u * length x_t in
  if num_trials =? 0 then inl ZeroDivisionError
  else
    let scores_coh_test := llr_1vs1 x_coh x_t in
    let scores_enr_coh := llr_Nvs1 x_e x_coh pool_method ids_e in
    let scores1 := snorm_predict coh_nbest coh_nbest_discard
                     scores0 scores_coh_test scores_enr_coh in
    inr (mkTrialScores enroll_u ndx_seg_set scores1).

End EvalPLDA.

End Pipeline.

(** ** Reference formulas and concrete inputs used by the properties *)

(** The weighted sum [sum_i w_i * u(x_i)] of the per-sample statistics, as the
    specification writes it. *)
Definition spec_weighted_sum (d : nat) (ws : list Qc) (us : mat) : vec :=
  fold_right (fun '(wi, r) acc => vadd (map (fun a => (wi * a)%Qc) r) acc)
             (zeros d) (combine ws us).

(** A heap with a one-row embedding matrix [x = [[1]]] at location 0 and a
    precomputed statistics array [[[5]]] at location 1. *)
Definition alias_world : world :=
  mkWorld [mkArray 1 [[qz 1]]; mkArray 1 [[qz 5]]] (mkParams [] 0%Qc).

(** A heap with an empty [0 x 2] embedding matrix at location 0. *)
Definition empty_world : world := mkWorld [mkArray 2 []] (mkParams [] 0%Qc).

Definition llk_world : world :=
  mkWorld [mkArray 2 [[qz 1; qz 2]; [qz 3; qz 4]]] (mkParams [qz 1; qz 1] (qz 1)).

(** A toy M-step for concrete runs: [eta := u_x], [A := 1]. *)
Definition toy_Mstep (N : Qc) (u_x : vec) (p : params) : params := mkParams u_x (qz 1).

Definition toy_elbo : Qc := (0 + dot [qz 4; qz 6] [qz 4; qz 6] - qz 2 * qz 1)%Qc.

(** A computation leaves the object's parameters unchanged. *)
Definition preserves_self {T} (m : M T) : Prop :=
  forall w t w', m w = inr (t, w') -> self w' = self w.

(** A computation that leaves the whole world (heap and object) unchanged. *)
Definition read_only {T} (m : M T) : Prop :=
  forall w t w', m w = inr (t, w') -> w' = w.

(** A heap with a three-row, one-column embedding matrix at location 0. *)
Definition batch_world : world :=
  mkWorld [mkArray 1 [[qz 1]; [qz 2]; [qz 3]]] (mkParams [] 0%Qc).

(** A [2 x 2] embedding matrix with a one-dimensional [eta]. *)
Definition width_world : world :=
  mkWorld [mkArray 2 [[qz 1; qz 2]; [qz 3; qz 4]]] (mkParams [qz 1] (qz 1)).

(** * Properties *)

(** ** Monad and heap lemmas *)

Lemma bind_inr {T U} (m : M T) (k : T -> M U) w t w' :
  m w = inr (t, w') -> bind m k w = k t w'.
Proof. intros H. unfold bind. now rewrite H. Qed.

Lemma bind_inl {T U} (m : M T) (k : T -> M U) w e :
  m w = inl e -> bind m k w = inl e.
Proof. intros H. unfold bind. now rewrite H. Qed.

Lemma qc_of_nat_0 : qc_of_nat 0 = 0%Qc.
Proof. apply Qc_is_canon. reflexivity. Qed.

Lemma colsum_nil d : colsum d [] = zeros d.
Proof. reflexivity. Qed.

(** ** C9: the static conversions of the base class *)

(** C9: each of [compute_A_nat], [compute_A_std], [compute_eta] and
    [compute_std] raises [NotImplementedError] on every input of the base
    class; none of them returns a value. *)
Theorem static_conversions_not_implemented :
  forall (std_params : Type) (eta0 : vec) (p : std_params),
    compute_A_nat eta0 = inl NotImplementedError /\
    compute_A_std std_params p = inl NotImplementedError /\
    compute_eta std_params p = inl NotImplementedError /\
    compute_std std_params eta0 = inl NotImplementedError.
Proof. intros. repeat split. Qed.

(** ** C10: empty input *)

(** C10: on a view with zero rows, the one-pass E-step returns [N = 0] and
    the zero vector, while the batched E-step, for every batch size [b >= 1],
    raises [UnboundLocalError] (its loop never binds [N] and [u_x]). *)
Theorem Estep_empty_paths_disagree :
  forall (w : world) (l off b : nat) (a : ndarray),
    1 <= b ->
    nth_error (heap w) l = Some a ->
    Estep (mkView l off 0) None None None w = inr ((0%Qc, zeros (ncols a)), w) /\
    Estep (mkView l off 0) None None (Some b) w = inl UnboundLocalError.
Proof.
  intros w l off b a Hb Ha. split.
  - unfold Estep, accum_suff_stats, accum_suff_stats_1batch, compute_suff_stats,
      bind, ret, read_view; simpl. rewrite Ha. simpl. rewrite Ha. simpl.
    rewrite qc_of_nat_0. reflexivity.
  - unfold Estep, accum_suff_stats, accum_suff_stats_nbatches, xrange, bind, ret, raise.
    simpl. destruct b as [|b']; [lia|]. reflexivity.
Qed.

Lemma Estep_empty_paths_disagree_witness :
  1 <= 2 /\
  nth_error (heap (mkWorld [mkArray 3 []] (mkParams [] 0%Qc))) 0 = Some (mkArray 3 []) /\
  Estep (mkView 0 0 0) None None None (mkWorld [mkArray 3 []] (mkParams [] 0%Qc))
    = inr ((0%Qc, zeros 3), mkWorld [mkArray 3 []] (mkParams [] 0%Qc)) /\
  Estep (mkView 0 0 0) None None (Some 2) (mkWorld [mkArray 3 []] (mkParams [] 0%Qc))
    = inl UnboundLocalError.
Proof.
  assert (H1 : 1 <= 2) by lia.
  assert (H2 : nth_error (heap (mkWorld [mkArray 3 []] (mkParams [] 0%Qc))) 0
               = Some (mkArray 3 [])) by reflexivity.
  split; [exact H1|]. split; [exact H2|].
  exact (Estep_empty_paths_disagree _ 0 0 2 _ H1 H2).
Defined.

(** ** The object [self] is only changed by [Mstep] *)

Lemma preserves_ret {T} (t : T) : preserves_self (ret t).
Proof. intros w t' w' H. now inversion H. Qed.

Lemma preserves_raise {T} e : preserves_self (@raise T e).
Proof. intros w t w' H. discriminate H. Qed.

Lemma preserves_bind {T U} (m : M T) (k : T -> M U) :
  preserves_self m -> (forall t, preserves_self (k t)) -> preserves_self (bind m k).
Proof.
  intros Hm Hk w u w' H. unfold bind in H.
  destruct (m w) as [e|[t w1]] eqn:E; [discriminate|].
  rewrite (Hk t w1 u w' H). exact (Hm w t w1 E).
Qed.

Lemma preserves_read_view v : preserves_self (read_view v).
Proof.
  intros w t w' H. unfold read_view in H.
  destruct (nth_error (heap w) (vloc v)); inversion H; reflexivity.
Qed.

Lemma preserves_write_view v m : preserves_self (write_view v m).
Proof.
  intros w t w' H. unfold write_view in H.
  destruct (nth_error (heap w) (vloc v)); inversion H; reflexivity.
Qed.

Lemma preserves_get_self : preserves_self get_self.
Proof. intros w t w' H. now inversion H. Qed.

Lemma preserves_inner u v : preserves_self (inner u v).
Proof.
  unfold inner. destruct (length u =? length v).
  - apply preserves_ret.
  - apply preserves_raise.
Qed.

Create HintDb self_frame.
#[local] Hint Resolve preserves_ret preserves_raise preserves_read_view
  preserves_write_view preserves_get_self preserves_inner : self_frame.

Ltac frame :=
  repeat first
    [ apply preserves_bind; [| intros [] || intros ]
    | progress (auto with self_frame)
    | match goal with
      | |- preserves_self (match ?o with _ => _ end) => destruct o
      | |- preserves_self (if ?b then _ else _) => destruct b
      end ].

Lemma preserves_1batch x u_x sw : preserves_self (accum_suff_stats_1batch x u_x sw).
Proof. unfold accum_suff_stats_1batch. frame. Qed.

Lemma preserves_loop x sw b idx acc : preserves_self (nbatches_loop x sw b idx acc).
Proof.
  revert acc. induction idx as [|i1 rest IH]; intros acc; simpl.
  - apply preserves_ret.
  - apply preserves_bind; [apply preserves_1batch|]. intros [N_i u_i].
    apply preserves_bind; [|intros; apply IH].
    destruct (i1 =? 0); [apply preserves_ret|].
    destruct acc as [[N u]|]; auto with self_frame.
Qed.

Lemma preserves_Estep x u_x sw bs : preserves_self (Estep x u_x sw bs).
Proof.
  unfold Estep, accum_suff_stats. destruct u_x, bs; try apply preserves_1batch.
  unfold accum_suff_stats_nbatches, xrange.
  apply preserves_bind; [destruct (_ =? 0); auto with self_frame|]. intros idx.
  apply preserves_bind; [apply preserves_loop|]. intros [p|]; auto with self_frame.
Qed.

(** ** C5: the ELBO *)

Lemma inner_ok u v w : length u = length v -> inner u v w = inr (dot u v, w).
Proof. intros H. unfold inner. now rewrite H, Nat.eqb_refl. Qed.

(** C5: [elbo] with [u_x] unsupplied accumulates [(N, u_x)] with
    [accum_suff_stats] and returns [accum_logh(x, w) + <u_x, eta> - N * A]
    (a [ValueError] when the dimensions of [u_x] and [eta] differ); with
    precomputed [u_x], [N] and [logh] it returns exactly
    [logh + <u_x, eta> - N * A]; and the call made inside [fit] equals the
    direct call given the same [(N, u_x)] and [logh = accum_logh(x)]. *)
Theorem elbo_natural_form :
  (forall (x : view) (N0 : Qc) (sw : option (list Qc)) (bs : option nat) (w : world),
     elbo x None N0 None sw bs w =
       match accum_suff_stats x None sw bs w with
       | inl e => inl e
       | inr ((N, u), w1) =>
           if length u =? length (eta (self w1))
           then inr ((accum_logh x sw + dot u (eta (self w1)) - N * A (self w1))%Qc, w1)
           else inl ValueError
       end) /\
  (forall (x : view) (u : vec) (N lh : Qc) (sw : option (list Qc)) (bs : option nat)
          (w : world),
     length u = length (eta (self w)) ->
     elbo x (Some u) N (Some lh) sw bs w
       = inr ((lh + dot u (eta (self w)) - N * A (self w))%Qc, w)) /\
  (forall (x : view) (u : vec) (N : Qc) (sw : option (list Qc)) (bs : option nat)
          (w : world),
     elbo x (Some u) N None None None w
       = elbo x (Some u) N (Some (accum_logh x None)) sw bs w).
Proof.
  split; [|split].
  - intros x N0 sw bs w. unfold elbo, bind at 1.
    destruct (accum_suff_stats x None sw bs w) as [e|[[N u] w1]]; [reflexivity|].
    unfold bind, get_self, inner, ret, raise.
    destruct (length u =? length (eta (self w1))); reflexivity.
  - intros x u N lh sw bs w H. unfold elbo, bind, ret at 1, get_self.
    now rewrite (inner_ok _ _ _ H).
  - intros. reflexivity.
Qed.

Lemma elbo_natural_form_witness :
  length [1%Qc] = length (eta (self (mkWorld [] (mkParams [1%Qc] 0%Qc)))) /\
  elbo (mkView 0 0 0) (Some [1%Qc]) 1%Qc (Some 0%Qc) None None
       (mkWorld [] (mkParams [1%Qc] 0%Qc))
    = inr ((0 + dot [1%Qc] [1%Qc] - 1 * 0)%Qc, mkWorld [] (mkParams [1%Qc] 0%Qc)).
Proof.
  assert (H : length [1%Qc] = length (eta (self (mkWorld [] (mkParams [1%Qc] 0%Qc)))))
    by reflexivity.
  split; [exact H|].
  exact (proj1 (proj2 elbo_natural_form) (mkView 0 0 0) [1%Qc] 1%Qc 0%Qc None None _ H).
Defined.

(** ** C6: per-sample log-likelihood *)

(** C6: [eval_llk(x, u_x, 'nat')] returns, for every row [r] of the
    statistics ([compute_suff_stats(x)], or the precomputed [u_x]),
    [logh(x) + <r, eta> - A] (a [ValueError] when the width of the
    statistics differs from [len(eta)], even with no rows); for every other
    mode it is [eval_llk_std(x)]. *)
Theorem eval_llk_modes :
  forall (eval_llk_std : view -> M vec) (x : view) (u_x : option view),
    (forall (w : world) (d : nat) (m : mat),
       read_view (match u_x with None => compute_suff_stats x | Some u => u end) w
         = inr ((d, m), w) ->
       d = length (eta (self w)) ->
       eval_llk eval_llk_std x u_x "nat" w
         = inr (map (fun r => (logh x + dot r (eta (self w)) - A (self w))%Qc) m, w)) /\
    (forall (w : world) (d : nat) (m : mat),
       read_view (match u_x with None => compute_suff_stats x | Some u => u end) w
         = inr ((d, m), w) ->
       d <> length (eta (self w)) ->
       eval_llk eval_llk_std x u_x "nat" w = inl ValueError) /\
    (forall mode : string, mode <> "nat"%string ->
       eval_llk eval_llk_std x u_x mode = eval_llk_std x).
Proof.
  intros std x u_x. split; [|split].
  - intros w d m Hr Hlen. unfold eval_llk. simpl. unfold eval_llk_nat.
    rewrite (bind_inr _ _ _ _ _ Hr). unfold bind, get_self, inner_mat.
    rewrite Hlen, Nat.eqb_refl. unfold ret. now rewrite map_map.
  - intros w d m Hr Hlen. unfold eval_llk. simpl. unfold eval_llk_nat.
    rewrite (bind_inr _ _ _ _ _ Hr). unfold bind, get_self, inner_mat.
    apply Nat.eqb_neq in Hlen. rewrite Hlen. reflexivity.
  - intros mode Hm. unfold eval_llk.
    destruct (String.eqb_spec mode "nat") as [E|E]; [contradiction|reflexivity].
Qed.

Lemma eval_llk_modes_witness :
  eval_llk (fun _ => ret []) (mkView 0 0 2) None "nat" llk_world
    = inr (map (fun r => (logh (mkView 0 0 2) + dot r [qz 1; qz 1] - qz 1)%Qc)
               [[qz 1; qz 2]; [qz 3; qz 4]], llk_world) /\
  eval_llk (fun _ => ret []) (mkView 0 0 0) None "nat" width_world = inl ValueError /\
  eval_llk (fun _ => ret []) (mkView 0 0 2) None "std" = ret [].
Proof.
  split; [|split].
  - apply (proj1 (eval_llk_modes (fun _ => ret []) (mkView 0 0 2) None) llk_world 2);
      reflexivity.
  - apply (proj1 (proj2 (eval_llk_modes (fun _ => ret []) (mkView 0 0 0) None))
             width_world 2 []); [reflexivity | discriminate].
  - apply (proj2 (proj2 (eval_llk_modes (fun _ => ret []) (mkView 0 0 2) None))).
    discriminate.
Defined.

(** ** C3, C4: one EM iteration *)

Lemma elbo_precomputed x u N lh sw bs w :
  length u = length (eta (self w)) ->
  elbo x (Some u) N lh sw bs w
    = inr (((match lh with None => accum_logh x sw | Some l => l end)
             + dot u (eta (self w)) - N * A (self w))%Qc, w).
Proof.
  intros H. unfold elbo, bind, ret at 1, get_self.
  rewrite (inner_ok _ _ _ H). reflexivity.
Qed.

Lemma elbo_precomputed_error x u N lh sw bs w err :
  elbo x (Some u) N lh sw bs w = inl err -> err = ValueError.
Proof.
  unfold elbo, bind, ret, get_self, inner, raise. simpl.
  destruct (length u =? length (eta (self w))); intros H; inversion H; reflexivity.
Qed.

(** C3: [fit] runs the E-step on [x], then one [Mstep] on its statistics,
    and returns [[elbo, elbo/N]] computed with the parameters [p1] the
    [Mstep] produced; with [x_val] it appends [[elbo_val, elbo_val/N_val]],
    where [N_val] comes from the E-step on [x_val] and [elbo_val] is again
    computed with [p1].  It raises nothing of its own: an exception of [fit]
    is one of an E-step, or the [ValueError] of a dimension mismatch. *)
Theorem fit_one_E_then_one_M :
  forall (Mstep : Qc -> vec -> params -> params) (x : view) (sw : option (list Qc))
         (x_val : option view) (sw_val : option (list Qc)) (bs : option nat) (w : world),
    (forall (N : Qc) (u : vec) (w1 : world),
       Estep x None sw bs w = inr ((N, u), w1) ->
       let p1 := Mstep N u (self w1) in
       let e := (accum_logh x None + dot u (eta p1) - N * A p1)%Qc in
       length u = length (eta p1) ->
       (x_val = None ->
          fit Mstep x sw x_val sw_val bs w = inr ([e; e / N]%Qc, mkWorld (heap w1) p1)) /\
       (forall (v : view) (Nv : Qc) (uv : vec) (w2 : world),
          x_val = Some v ->
          Estep v None sw_val bs (mkWorld (heap w1) p1) = inr ((Nv, uv), w2) ->
          length uv = length (eta p1) ->
          let ev := (accum_logh v None + dot uv (eta p1) - Nv * A p1)%Qc in
          fit Mstep x sw x_val sw_val bs w = inr ([e; e / N; ev; ev / Nv]%Qc, w2))) /\
    (forall err : exn,
       fit Mstep x sw x_val sw_val bs w = inl err ->
       Estep x None sw bs w = inl err \/ err = ValueError \/
       (exists (v : view) (w' : world), x_val = Some v /\ Estep v None sw_val bs w' = inl err)).
Proof.
  intros Mstep x sw x_val sw_val bs w. split.
  - intros N u w1 HE p1 e Hlen.
    assert (Hel : elbo x (Some u) N None None None (mkWorld (heap w1) p1)
                  = inr (e, mkWorld (heap w1) p1))
      by (apply elbo_precomputed; exact Hlen).
    split.
    + intros ->. unfold fit. rewrite (bind_inr _ _ _ _ _ HE). cbn beta iota.
      unfold bind at 1, Mstep_call. fold p1.
      rewrite (bind_inr _ _ _ _ _ Hel). reflexivity.
    + intros v Nv uv w2 -> HEv Hlenv ev.
      assert (Hs : self w2 = p1) by exact (preserves_Estep _ _ _ _ _ _ _ HEv).
      assert (Helv : elbo v (Some uv) Nv None None None w2 = inr (ev, w2))
        by (rewrite elbo_precomputed; [unfold ev; rewrite Hs; reflexivity
                                      | rewrite Hs; exact Hlenv]).
      unfold fit. rewrite (bind_inr _ _ _ _ _ HE). cbn beta iota.
      unfold bind at 1, Mstep_call. fold p1.
      rewrite (bind_inr _ _ _ _ _ Hel). cbn beta iota.
      rewrite (bind_inr _ _ _ _ _ HEv). cbn beta iota.
      rewrite (bind_inr _ _ _ _ _ Helv). reflexivity.
  - intros err Hf. unfold fit, bind at 1 in Hf.
    destruct (Estep x None sw bs w) as [e0|[[N u] w1]] eqn:HE.
    + left. inversion Hf; subst. reflexivity.
    + right. unfold bind at 1, Mstep_call in Hf. unfold bind at 1 in Hf.
      destruct (elbo x (Some u) N None None None _) as [e1|[e w2]] eqn:Hel.
      * left. inversion Hf; subst. exact (elbo_precomputed_error _ _ _ _ _ _ _ _ Hel).
      * destruct x_val as [v|]; [|discriminate].
        unfold bind at 1 in Hf.
        destruct (Estep v None sw_val bs w2) as [e2|[[Nv uv] w3]] eqn:HEv.
        -- right. exists v, w2. inversion Hf; subst. split; [reflexivity|exact HEv].
        -- left. unfold bind in Hf.
           destruct (elbo v (Some uv) Nv None None None w3) as [e3|[ev w4]] eqn:Helv;
             [|discriminate].
           inversion Hf; subst. exact (elbo_precomputed_error _ _ _ _ _ _ _ _ Helv).
Qed.

Lemma fit_one_E_then_one_M_witness :
  Estep (mkView 0 0 2) None None None llk_world = inr ((qz 2, [qz 4; qz 6]), llk_world) /\
  fit toy_Mstep (mkView 0 0 2) None (Some (mkView 0 0 2)) None None llk_world
    = inr ([toy_elbo; toy_elbo / qz 2; toy_elbo; toy_elbo / qz 2]%Qc,
           mkWorld (heap llk_world) (mkParams [qz 4; qz 6] (qz 1))).
Proof.
  split; [reflexivity|].
  exact (proj2 (proj1 (fit_one_E_then_one_M toy_Mstep (mkView 0 0 2) None
                         (Some (mkView 0 0 2)) None None llk_world)
                      (qz 2) [qz 4; qz 6] llk_world eq_refl eq_refl)
               (mkView 0 0 2) (qz 2) [qz 4; qz 6]
               (mkWorld (heap llk_world) (mkParams [qz 4; qz 6] (qz 1)))
               eq_refl eq_refl eq_refl).
Defined.

(** C4: after [fit] the parameters are exactly those produced by the single
    [Mstep] on the training statistics: the validation E-step and ELBO leave
    them unchanged, and the validation ELBO is computed with them. *)
Theorem fit_params_after_Mstep :
  forall (Mstep : Qc -> vec -> params -> params) (x : view) (sw : option (list Qc))
         (x_val : option view) (sw_val : option (list Qc)) (bs : option nat)
         (w : world) (N : Qc) (u : vec) (w1 : world) (r : list Qc) (wf : world),
    Estep x None sw bs w = inr ((N, u), w1) ->
    fit Mstep x sw x_val sw_val bs w = inr (r, wf) ->
    let p1 := Mstep N u (self w) in
    self wf = p1 /\
    (forall v : view, x_val = Some v ->
       exists (Nv : Qc) (uv : vec),
         Estep v None sw_val bs (mkWorld (heap w1) p1) = inr ((Nv, uv), wf) /\
         let ev := (accum_logh v None + dot uv (eta p1) - Nv * A p1)%Qc in
         skipn 2 r = [ev; (ev / Nv)%Qc]).
Proof.
  intros Mstep x sw x_val sw_val bs w N u w1 r wf HE Hf p1.
  assert (Hs1 : self w1 = self w) by exact (preserves_Estep _ _ _ _ _ _ _ HE).
  unfold fit in Hf. rewrite (bind_inr _ _ _ _ _ HE) in Hf. cbn beta iota in Hf.
  unfold bind at 1, Mstep_call in Hf. rewrite Hs1 in Hf. fold p1 in Hf.
  unfold bind at 1 in Hf.
  destruct (elbo x (Some u) N None None None (mkWorld (heap w1) p1))
    as [e1|[e w2]] eqn:Hel; [discriminate|].
  assert (Hs2 : self w2 = p1).
  { unfold elbo, bind, ret, get_self, inner, raise in Hel. simpl in Hel.
    destruct (length u =? length (eta p1)); inversion Hel; reflexivity. }
  destruct x_val as [v|].
  - unfold bind at 1 in Hf.
    destruct (Estep v None sw_val bs w2) as [e2|[[Nv uv] w3]] eqn:HEv; [discriminate|].
    assert (Hw2 : w2 = mkWorld (heap w1) p1).
    { unfold elbo, bind, ret, get_self, inner, raise in Hel. simpl in Hel.
      destruct (length u =? length (eta p1)); inversion Hel; reflexivity. }
    assert (Hs3 : self w3 = p1)
      by (rewrite (preserves_Estep _ _ _ _ _ _ _ HEv); exact Hs2).
    unfold bind in Hf.
    destruct (elbo v (Some uv) Nv None None None w3) as [e3|[ev w4]] eqn:Helv;
      [discriminate|].
    unfold elbo, bind, ret, get_self, inner, raise in Helv. simpl in Helv.
    rewrite Hs3 in Helv.
    destruct (length uv =? length (eta p1)); [|discriminate].
    inversion Helv; subst ev w4. inversion Hf; subst r wf.
    split; [exact Hs3|].
    intros v' Hv. inversion Hv; subst v'. exists Nv, uv. split.
    + rewrite <- Hw2. exact HEv.
    + reflexivity.
  - unfold ret in Hf. inversion Hf; subst r wf. split; [exact Hs2|].
    intros v' Hv. discriminate.
Qed.

Lemma fit_params_after_Mstep_witness :
  Estep (mkView 0 0 2) None None None llk_world = inr ((qz 2, [qz 4; qz 6]), llk_world) /\
  fit toy_Mstep (mkView 0 0 2) None (Some (mkView 0 0 2)) None None llk_world
    = inr ([toy_elbo; toy_elbo / qz 2; toy_elbo; toy_elbo / qz 2]%Qc,
           mkWorld (heap llk_world) (mkParams [qz 4; qz 6] (qz 1))) /\
  self (mkWorld (heap llk_world) (mkParams [qz 4; qz 6] (qz 1)))
    = toy_Mstep (qz 2) [qz 4; qz 6] (self llk_world).
Proof.
  assert (HE : Estep (mkView 0 0 2) None None None llk_world
               = inr ((qz 2, [qz 4; qz 6]), llk_world)) by reflexivity.
  assert (Hf : fit toy_Mstep (mkView 0 0 2) None (Some (mkView 0 0 2)) None None llk_world
    = inr ([toy_elbo; toy_elbo / qz 2; toy_elbo; toy_elbo / qz 2]%Qc,
           mkWorld (heap llk_world) (mkParams [qz 4; qz 6] (qz 1)))) by reflexivity.
  split; [exact HE|]. split; [exact Hf|].
  exact (proj1 (fit_params_after_Mstep toy_Mstep _ _ _ _ _ _ _ _ _ _ _ HE Hf)).
Defined.

(** ** C8: the scoring script *)

Lemma in_insert_uniq (s t : string) (l : list string) :
  In s (Pipeline.insert_uniq t l) <-> s = t \/ In s l.
Proof.
  induction l as [|h l IH]; simpl.
  - intuition congruence.
  - destruct (String.compare t h) eqn:C.
    + apply String.compare_eq_iff in C. subst h. simpl. intuition congruence.
    + simpl. intuition congruence.
    + simpl. rewrite IH. intuition congruence.
Qed.

Lemma in_unique (s : string) (l : list string) : In s (Pipeline.unique l) <-> In s l.
Proof.
  induction l as [|h l IH]; simpl; [tauto|].
  rewrite in_insert_uniq, IH. intuition congruence.
Qed.

Lemma index_of_nth (s : string) (u : list string) :
  In s u -> nth_error u (Pipeline.index_of s u) = Some s.
Proof.
  induction u as [|h u IH]; simpl; [tauto|].
  destruct (String.eqb_spec s h) as [E|E].
  - intros _. now subst.
  - intros [H|H]; [congruence|]. now apply IH.
Qed.

(** C8: [eval_plda] deduplicates the enrollment identities with
    [np.unique(..., return_inverse=True)], whose inverse index [ids_e] maps
    every enrollment segment to its own identity; when it completes, the object
    it saves holds exactly [SNorm.predict(S, S_ct, S_ec)] with
    [S = llr_Nvs1(x_e, x_t, method, ids_e)], [S_ct = llr_1vs1(x_coh, x_t)] and
    [S_ec = llr_Nvs1(x_e, x_coh, method, ids_e)]; it raises
    [ZeroDivisionError] (in the per-trial timing) and saves nothing when there
    are no trials. *)
Theorem eval_plda_saves_snorm_scores :
  forall (llr_Nvs1 : mat -> mat -> string -> list nat -> mat)
         (llr_1vs1 : mat -> mat -> mat)
         (snorm_predict : nat -> nat -> mat -> mat -> mat -> mat)
         (x_e x_t : mat) (enroll seg_set : list string) (x_coh : mat)
         (nbest nbest_discard : nat) (pool_method : string),
    let enroll_u := fst (Pipeline.unique_inverse enroll) in
    let ids_e := snd (Pipeline.unique_inverse enroll) in
    (forall (i : nat) (s : string),
       nth_error enroll i = Some s -> nth_error enroll_u (nth i ids_e 0) = Some s) /\
    Pipeline.eval_plda llr_Nvs1 llr_1vs1 snorm_predict x_e x_t enroll seg_set x_coh
      nbest nbest_discard pool_method
    = if length enroll_u * length x_t =? 0 then inl ZeroDivisionError
      else inr (Pipeline.mkTrialScores enroll_u seg_set
                  (snorm_predict nbest nbest_discard
                     (llr_Nvs1 x_e x_t pool_method ids_e)
                     (llr_1vs1 x_coh x_t)
                     (llr_Nvs1 x_e x_coh pool_method ids_e))).
Proof.
  intros. split.
  - intros i s H. unfold ids_e, enroll_u, Pipeline.unique_inverse. simpl.
    assert (Hm : nth_error (map (fun s0 => Pipeline.index_of s0 (Pipeline.unique enroll))
                                enroll) i
                 = Some (Pipeline.index_of s (Pipeline.unique enroll)))
      by (rewrite nth_error_map, H; reflexivity).
    erewrite nth_error_nth; [|exact Hm].
    apply index_of_nth. apply in_unique. exact (nth_error_In _ _ H).
  - reflexivity.
Qed.

Lemma eval_plda_saves_snorm_scores_witness :
  nth_error ["b"; "a"; "b"]%string 0 = Some "b"%string /\
  nth_error (fst (Pipeline.unique_inverse ["b"; "a"; "b"]%string))
            (nth 0 (snd (Pipeline.unique_inverse ["b"; "a"; "b"]%string)) 0)
    = Some "b"%string.
Proof.
  split; [reflexivity|].
  exact (proj1 (eval_plda_saves_snorm_scores (fun _ _ _ _ => []) (fun _ _ => [])
                  (fun _ _ s _ _ => s) [] [[qz 1]] ["b"; "a"; "b"]%string [] []
                  1 0 "vavg") 0 "b"%string eq_refl).
Defined.

(** ** Heap lemmas *)

Lemma length_set_nth {T} n (x : T) l : length (set_nth n x l) = length l.
Proof. revert n; induction l; intros [|n]; simpl; auto. Qed.

Lemma nth_error_set_nth_same {T} n (x y : T) l :
  nth_error l n = Some y -> nth_error (set_nth n x l) n = Some x.
Proof.
  revert n; induction l as [|z l IH]; intros [|n] H; simpl in *; try discriminate; auto.
Qed.

Lemma nth_error_set_nth_other {T} n m (x : T) l :
  n <> m -> nth_error (set_nth n x l) m = nth_error l m.
Proof.
  revert n m; induction l as [|z l IH]; intros [|n] [|m] H; simpl; auto; try lia.
  all: apply IH; lia.
Qed.

Lemma set_nth_nth_error {T} n (y : T) l :
  nth_error l n = Some y -> set_nth n y l = l.
Proof.
  revert n; induction l as [|z l IH]; intros [|n] H; simpl in *; try discriminate.
  - now inversion H.
  - now rewrite IH.
Qed.

Lemma set_nth_set_nth {T} n (x y : T) l : set_nth n x (set_nth n y l) = set_nth n x l.
Proof. revert n; induction l; intros [|n]; simpl; f_equal; auto. Qed.

Lemma firstn_skipn_splice off len m d :
  length m = len -> off + len <= length d ->
  firstn len (skipn off (splice off m d)) = m.
Proof.
  intros Hm Hd. unfold splice.
  rewrite skipn_app, length_firstn.
  replace (off - Nat.min off (length d)) with 0 by lia.
  rewrite skipn_all2 by (rewrite length_firstn; lia). simpl.
  rewrite firstn_app, Hm, Nat.sub_diag. simpl.
  rewrite app_nil_r, <- Hm. apply firstn_all.
Qed.

Lemma length_splice off m d :
  off + length m <= length d -> length (splice off m d) = length d.
Proof.
  intros H. unfold splice. rewrite !length_app, length_firstn, length_skipn. lia.
Qed.

Lemma length_scale_rows w m m' : scale_rows w m = Some m' -> length m' = length m.
Proof.
  unfold scale_rows. destruct (length w =? length m) eqn:E.
  - intros H. inversion H. rewrite length_map, length_combine.
    apply Nat.eqb_eq in E. lia.
  - destruct w as [|w0 [|]]; intros H; inversion H. apply length_map.
Qed.

(** Reading a view through an in-bounds view of a heap array. *)
Lemma read_view_ok w v a :
  nth_error (heap w) (vloc v) = Some a ->
  read_view v w = inr ((ncols a, firstn (vlen v) (skipn (voff v) (data a))), w).
Proof. intros H. unfold read_view. now rewrite H. Qed.

Lemma write_view_ok w v a m :
  nth_error (heap w) (vloc v) = Some a ->
  write_view v m w
    = inr (tt, mkWorld (set_nth (vloc v) (mkArray (ncols a) (splice (voff v) m (data a)))
                                (heap w)) (self w)).
Proof. intros H. unfold write_view. now rewrite H. Qed.

(** The one-pass accumulation, on an in-bounds view. *)
Lemma accum_1batch_unweighted w x a :
  nth_error (heap w) (vloc x) = Some a ->
  accum_suff_stats_1batch x None None w
    = inr ((qc_of_nat (length (firstn (vlen x) (skipn (voff x) (data a)))),
            colsum (ncols a) (firstn (vlen x) (skipn (voff x) (data a)))), w).
Proof.
  intros H. unfold accum_suff_stats_1batch, compute_suff_stats.
  rewrite (bind_inr _ _ _ _ _ (read_view_ok _ _ _ H)). cbn beta iota.
  unfold bind at 1, ret at 1. cbn beta iota.
  rewrite (bind_inr _ _ _ _ _ (read_view_ok _ _ _ H)). reflexivity.
Qed.

Lemma accum_1batch_weighted w x a ws m' :
  nth_error (heap w) (vloc x) = Some a ->
  voff x + vlen x <= length (data a) ->
  scale_rows ws (firstn (vlen x) (skipn (voff x) (data a))) = Some m' ->
  accum_suff_stats_1batch x None (Some ws) w
    = inr ((sum ws, colsum (ncols a) m'),
           mkWorld (set_nth (vloc x) (mkArray (ncols a) (splice (voff x) m' (data a)))
                            (heap w)) (self w)).
Proof.
  intros H Hb Hs.
  assert (Hlen : length m' = vlen x).
  { rewrite (length_scale_rows _ _ _ Hs), length_firstn, length_skipn. lia. }
  unfold accum_suff_stats_1batch, compute_suff_stats.
  rewrite (bind_inr _ _ _ _ _ (read_view_ok _ _ _ H)). cbn beta iota.
  rewrite Hs. unfold bind at 1.
  rewrite (bind_inr _ _ _ _ _ (write_view_ok _ _ _ _ H)). unfold ret at 1.
  cbn beta iota.
  assert (H' : nth_error (set_nth (vloc x) (mkArray (ncols a) (splice (voff x) m' (data a)))
                                  (heap w)) (vloc x)
               = Some (mkArray (ncols a) (splice (voff x) m' (data a))))
    by exact (nth_error_set_nth_same _ _ _ _ H).
  unfold bind, read_view. simpl. rewrite H'. simpl.
  rewrite firstn_skipn_splice by lia. reflexivity.
Qed.

Lemma colsum_scaled d ws rows :
  length ws = length rows ->
  colsum d (map (fun '(r, wi) => map (fun a => (a * wi)%Qc) r) (combine rows ws))
  = spec_weighted_sum d ws rows.
Proof.
  revert ws; induction rows as [|r rows IH]; intros [|wi ws] H; simpl in *;
    try discriminate; [reflexivity|].
  unfold colsum in *. simpl. rewrite IH by lia.
  unfold spec_weighted_sum at 2. simpl. fold (spec_weighted_sum d ws rows). f_equal.
  apply map_ext. intros. apply Qcmult_comm.
Qed.

(** ** C7: what the E-step accumulates *)

(** C7: without sample weights the (one-pass) E-step returns [N] = the number
    of rows of [x] and [u_x] = the column sums of [compute_suff_stats(x)],
    here the rows of [x] themselves; with a weight vector [ws] (one weight
    per row) it returns [N = sum ws] and [u_x = sum_i ws_i * x_i]. *)
Theorem Estep_sufficient_statistics :
  forall (w : world) (x : view) (a : ndarray),
    nth_error (heap w) (vloc x) = Some a ->
    voff x + vlen x <= length (data a) ->
    let rows := firstn (vlen x) (skipn (voff x) (data a)) in
    Estep x None None None w = inr ((qc_of_nat (vlen x), colsum (ncols a) rows), w) /\
    (forall ws : list Qc, length ws = vlen x ->
       exists w' : world,
         Estep x None (Some ws) None w
           = inr ((sum ws, spec_weighted_sum (ncols a) ws rows), w')).
Proof.
  intros w x a H Hb rows.
  assert (Hr : length rows = vlen x)
    by (unfold rows; rewrite length_firstn, length_skipn; lia).
  split.
  - unfold Estep, accum_suff_stats. rewrite (accum_1batch_unweighted _ _ _ H).
    fold rows. now rewrite Hr.
  - intros ws Hws.
    assert (Hs : scale_rows ws rows
                 = Some (map (fun '(r, wi) => map (fun a => (a * wi)%Qc) r)
                             (combine rows ws)))
      by (unfold scale_rows; rewrite Hws, Hr, Nat.eqb_refl; reflexivity).
    eexists. unfold Estep, accum_suff_stats.
    rewrite (accum_1batch_weighted _ _ _ _ _ H Hb Hs).
    rewrite colsum_scaled; [reflexivity|]. rewrite Hws. symmetry. exact Hr.
Qed.

Lemma Estep_sufficient_statistics_witness :
  nth_error (heap llk_world) 0 = Some (mkArray 2 [[qz 1; qz 2]; [qz 3; qz 4]]) /\
  0 + 2 <= 2 /\
  Estep (mkView 0 0 2) None None None llk_world
    = inr ((qc_of_nat 2, colsum 2 [[qz 1; qz 2]; [qz 3; qz 4]]), llk_world).
Proof.
  assert (H1 : nth_error (heap llk_world) 0 = Some (mkArray 2 [[qz 1; qz 2]; [qz 3; qz 4]]))
    by reflexivity.
  assert (H2 : 0 + 2 <= 2) by lia.
  split; [exact H1|]. split; [exact H2|].
  exact (proj1 (Estep_sufficient_statistics llk_world (mkView 0 0 2) _ H1 H2)).
Defined.

(** ** C2: in-place weighting *)

(** C2 (at the failing input): with sample weights, [_accum_suff_stats_1batch]
    runs [u_x *= sample_weights[:, None]] on [u_x = compute_suff_stats(x)],
    which is [x] itself, so [Estep([[1]], sample_weights=[2])] leaves
    [x = [[2]]]; with a precomputed [u_x = [[5]]] it leaves [u_x = [[10]]]. *)
Theorem Estep_weights_mutate_inputs :
  Estep (mkView 0 0 1) None (Some [qz 2]) None alias_world
    = inr ((qz 2, [qz 2]),
           mkWorld [mkArray 1 [[qz 2]]; mkArray 1 [[qz 5]]] (self alias_world)) /\
  Estep (mkView 0 0 1) (Some (mkView 1 0 1)) (Some [qz 2]) None alias_world
    = inr ((qz 2, [qz 10]),
           mkWorld [mkArray 1 [[qz 1]]; mkArray 1 [[qz 10]]] (self alias_world)).
Proof. split; reflexivity. Qed.

(** ** C1: batched and one-pass accumulation *)

(** C1 (at the failing input): on an empty [0 x 2] matrix the one-pass E-step
    returns [(0, [0, 0])] but the E-step with [batch_size = 1] raises
    [UnboundLocalError]. *)
Theorem Estep_batched_empty_input :
  Estep (mkView 0 0 0) None None None empty_world = inr ((0%Qc, [0%Qc; 0%Qc]), empty_world) /\
  Estep (mkView 0 0 0) None None (Some 1) empty_world = inl UnboundLocalError.
Proof. split; [vm_compute; f_equal; f_equal; f_equal; apply Qc_is_canon; reflexivity|reflexivity]. Qed.

(** *** Accumulation algebra *)

Lemma qc_of_nat_add i k : qc_of_nat (i + k) = (qc_of_nat i + qc_of_nat k)%Qc.
Proof.
  unfold qc_of_nat, Qcplus. apply Q2Qc_eq_iff. unfold Q2Qc. cbn [this].
  rewrite !Qred_correct, Znat.Nat2Z.inj_add, inject_Z_plus. reflexivity.
Qed.

Lemma sum_app l1 l2 : sum (l1 ++ l2) = (sum l1 + sum l2)%Qc.
Proof.
  induction l1 as [|h l1 IH]; simpl.
  - ring.
  - unfold sum in *. simpl. rewrite IH. ring.
Qed.

Lemma vadd_assoc u v t : vadd u (vadd v t) = vadd (vadd u v) t.
Proof.
  revert v t; induction u as [|a u IH]; intros [|b v] [|c t]; simpl; auto.
  now rewrite IH, Qcplus_assoc.
Qed.

Lemma vadd_zeros_l d v : length v = d -> vadd (zeros d) v = v.
Proof.
  intros <-. unfold zeros. induction v as [|a v IH]; simpl; auto.
  rewrite IH, Qcplus_0_l. reflexivity.
Qed.

Lemma length_vadd u v : length (vadd u v) = Nat.min (length u) (length v).
Proof. revert v; induction u; intros [|b v]; simpl; auto. Qed.

Lemma length_colsum d m :
  Forall (fun r => length r = d) m -> length (colsum d m) = d.
Proof.
  intros H. induction H as [|r m Hr Hm IH]; simpl.
  - apply repeat_length.
  - unfold colsum in *. simpl. rewrite length_vadd, Hr, IH. lia.
Qed.

Lemma colsum_app d m1 m2 :
  Forall (fun r => length r = d) m2 ->
  colsum d (m1 ++ m2) = vadd (colsum d m1) (colsum d m2).
Proof.
  intros H2. induction m1 as [|r m1 IH]; simpl.
  - symmetry. apply vadd_zeros_l, length_colsum, H2.
  - unfold colsum in *. simpl. rewrite IH. apply vadd_assoc.
Qed.

Lemma skipn_combine {T U} k (l1 : list T) (l2 : list U) :
  skipn k (combine l1 l2) = combine (skipn k l1) (skipn k l2).
Proof.
  revert l1 l2; induction k as [|k IH]; intros [|x l1] [|y l2]; simpl; auto.
  now destruct (skipn k l1).
Qed.

Lemma firstn_plus {T} i k (l : list T) :
  firstn (i + k) l = firstn i l ++ firstn k (skipn i l).
Proof.
  revert l; induction i as [|i IH]; intros [|x l]; simpl; auto.
  - now rewrite firstn_nil.
  - now rewrite IH.
Qed.

Lemma firstn_min_length {T} m (l : list T) : firstn (Nat.min m (length l)) l = firstn m l.
Proof.
  destruct (Nat.le_ge_cases m (length l)).
  - now rewrite Nat.min_l.
  - rewrite Nat.min_r by lia. rewrite firstn_all, firstn_all2 by lia. reflexivity.
Qed.

(** Splicing rows back over the very rows that were there changes nothing. *)
Lemma splice_same off i d :
  off + i <= length d -> splice off (firstn i (skipn off d)) d = d.
Proof.
  intros H. unfold splice.
  rewrite length_firstn, length_skipn, Nat.min_l by lia.
  replace (off + i) with (i + off) by lia.
  rewrite <- skipn_skipn, !firstn_skipn. reflexivity.
Qed.

Lemma skipn_length_app {T} (l1 l2 : list T) m :
  skipn (length l1 + m) (l1 ++ l2) = skipn m l2.
Proof. induction l1; simpl; auto. Qed.

(** Splicing a further block right after an already spliced prefix. *)
Lemma splice_extend off p c d :
  off + length p + length c <= length d ->
  splice (off + length p) c (splice off p d) = splice off (p ++ c) d.
Proof.
  intros H. unfold splice.
  assert (Hf : length (firstn off d) = off) by (rewrite length_firstn; lia).
  set (F := firstn off d) in *. set (R := skipn (off + length p) d).
  rewrite (app_assoc F p R).
  replace (off + length p) with (length (F ++ p) + 0) at 1
    by (rewrite length_app; lia).
  rewrite firstn_app_2, firstn_O, app_nil_r.
  replace (off + length p + length c) with (length (F ++ p) + length c)
    by (rewrite length_app; lia).
  rewrite skipn_length_app. unfold R. rewrite skipn_skipn, length_app.
  rewrite <- !app_assoc. f_equal; f_equal; f_equal. f_equal. lia.
Qed.

Lemma Forall_firstn' {T} (P : T -> Prop) k l : Forall P l -> Forall P (firstn k l).
Proof.
  revert l; induction k as [|k IH]; intros l H; [constructor|].
  destruct H; simpl; constructor; auto.
Qed.

Lemma Forall_skipn' {T} (P : T -> Prop) k l : Forall P l -> Forall P (skipn k l).
Proof.
  revert l; induction k as [|k IH]; intros l H; auto.
  destruct H; simpl; [constructor|auto].
Qed.

(** *** Batched and one-pass accumulation agree on non-empty input *)
Section BatchAgreement.

Variables (w : world) (l off n b : nat) (a : ndarray) (sw : option (list Qc)).
Hypothesis Ha : nth_error (heap w) l = Some a.
Hypothesis Hbound : off + n <= length (data a).
Hypothesis Hrows : Forall (fun r => length r = ncols a) (data a).
Hypothesis Hb : 1 <= b.
Hypothesis Hsw : forall ws, sw = Some ws -> length ws = n.

(** The rows of [x], and the rows as [_accum_suff_stats_1batch] leaves them. *)
Let seg : mat := firstn n (skipn off (data a)).
Let segP : mat :=
  match sw with
  | None => seg
  | Some ws => map (fun '(r, wi) => map (fun q => (q * wi)%Qc) r) (combine seg ws)
  end.
Let cnt (i : nat) : Qc :=
  match sw with None => qc_of_nat i | Some ws => sum (firstn i ws) end.
(** The world once the first [i] rows have been processed. *)
Let wstate (i : nat) : world :=
  mkWorld (set_nth l (mkArray (ncols a) (splice off (firstn i segP) (data a))) (heap w))
          (self w).

Lemma seg_length : length seg = n.
Proof. unfold seg. rewrite length_firstn, length_skipn. lia. Qed.

Lemma segP_length : length segP = n.
Proof.
  unfold segP. destruct sw as [ws|] eqn:E; [|apply seg_length].
  rewrite length_map, length_combine, seg_length, (Hsw ws eq_refl). lia.
Qed.

Lemma segP_rows : Forall (fun r => length r = ncols a) segP.
Proof.
  assert (Hs : Forall (fun r => length r = ncols a) seg)
    by (apply Forall_firstn', Forall_skipn', Hrows).
  unfold segP. destruct sw as [ws|]; [|exact Hs].
  apply Forall_forall. intros r Hr. apply in_map_iff in Hr.
  destruct Hr as [[r0 wi] [<- Hin]]. rewrite length_map.
  apply in_combine_l in Hin. exact (proj1 (Forall_forall _ _) Hs r0 Hin).
Qed.

Lemma wstate_0 : wstate 0 = w.
Proof.
  unfold wstate. simpl. unfold splice. simpl. rewrite Nat.add_0_r, firstn_skipn.
  replace (mkArray (ncols a) (data a)) with a by (destruct a; reflexivity).
  rewrite (set_nth_nth_error _ _ _ Ha). destruct w; reflexivity.
Qed.

Lemma wstate_unweighted i : sw = None -> i <= n -> wstate i = w.
Proof.
  intros E Hi. rewrite <- wstate_0. unfold wstate. do 3 f_equal.
  unfold segP. rewrite E. unfold seg. rewrite !firstn_firstn, !splice_same by lia.
  reflexivity.
Qed.

Lemma wstate_array i :
  nth_error (heap (wstate i)) l
    = Some (mkArray (ncols a) (splice off (firstn i segP) (data a))).
Proof. exact (nth_error_set_nth_same _ _ _ _ Ha). Qed.

Lemma wstate_chunk i k :
  i + k <= n ->
  firstn k (skipn (off + i) (splice off (firstn i segP) (data a))) = firstn k (skipn i seg).
Proof.
  intros H.
  assert (Hp : length (firstn i segP) = i) by (rewrite length_firstn, segP_length; lia).
  assert (Hf : length (firstn off (data a)) = off) by (rewrite length_firstn; lia).
  unfold splice. rewrite Hp, app_assoc.
  replace (off + i) with (length (firstn off (data a) ++ firstn i segP) + 0) at 1
    by (rewrite length_app; lia).
  rewrite skipn_length_app. simpl.
  unfold seg. rewrite skipn_firstn_comm, firstn_firstn, skipn_skipn.
  rewrite Nat.min_l by lia. f_equal. f_equal. lia.
Qed.

(** One iteration of the batched loop, at rows [i .. i + k - 1]. *)
Lemma batch_step i :
  i < n ->
  let k := Nat.min (i + b) n - i in
  accum_suff_stats_1batch (mkView l (off + i) k) None
    (option_map (fun ws => firstn k (skipn i ws)) sw) (wstate i)
  = inr ((match sw with
          | None => qc_of_nat k
          | Some ws => sum (firstn k (skipn i ws))
          end, colsum (ncols a) (firstn k (skipn i segP))), wstate (i + k)).
Proof.
  intros Hi k.
  assert (Hk : i + k <= n) by (unfold k; lia).
  assert (Hc : firstn k (skipn i seg) = firstn k (skipn (off + i)
                 (splice off (firstn i segP) (data a))))
    by (symmetry; apply wstate_chunk; exact Hk).
  assert (Hck : length (firstn k (skipn i seg)) = k)
    by (rewrite length_firstn, length_skipn, seg_length; lia).
  assert (Hlen : off + length (firstn i segP) <= length (data a))
    by (rewrite length_firstn, segP_length; lia).
  assert (Hpi : length (firstn i segP) = i) by (rewrite length_firstn, segP_length; lia).
  assert (Hpk : length (firstn k (skipn i segP)) = k)
    by (rewrite length_firstn, length_skipn, segP_length; lia).
  assert (Hcase : (exists ws, sw = Some ws) \/ sw = None)
    by (destruct sw; eauto).
  destruct Hcase as [[ws E]|E]; rewrite E.
  - assert (Hws : length ws = n) by (apply Hsw; exact E).
    assert (Hcw : length (firstn k (skipn i ws)) = k)
      by (rewrite length_firstn, length_skipn; lia).
    assert (Hscale : scale_rows (firstn k (skipn i ws))
                       (firstn (vlen (mkView l (off + i) k)) (skipn (voff (mkView l (off + i) k))
                          (data (mkArray (ncols a) (splice off (firstn i segP) (data a))))))
                     = Some (firstn k (skipn i segP))).
    { simpl. rewrite <- Hc. unfold scale_rows. rewrite Hck, Hcw, Nat.eqb_refl.
      unfold segP. rewrite ?E, skipn_map, firstn_map, skipn_combine, combine_firstn.
      reflexivity. }
    assert (Hbnd : voff (mkView l (off + i) k) + vlen (mkView l (off + i) k)
                   <= length (data (mkArray (ncols a) (splice off (firstn i segP) (data a)))))
      by (simpl; rewrite length_splice by exact Hlen; lia).
    simpl option_map.
    rewrite (accum_1batch_weighted (wstate i) (mkView l (off + i) k) _ _ _
               (wstate_array i) Hbnd Hscale).
    simpl. unfold wstate. rewrite set_nth_set_nth. do 5 f_equal.
    rewrite <- Hpi at 1.
    rewrite splice_extend by (rewrite Hpk; lia).
    f_equal. rewrite <- firstn_plus. reflexivity.
  - simpl option_map.
    rewrite (accum_1batch_unweighted (wstate i) (mkView l (off + i) k) _ (wstate_array i)).
    simpl. rewrite <- Hc, Hck.
    rewrite !wstate_unweighted by (auto; lia).
    unfold segP. rewrite ?E. reflexivity.
Qed.

Lemma sw_cases : (exists ws, sw = Some ws) \/ sw = None.
Proof. destruct sw; eauto. Qed.

Lemma cnt_chunk i k :
  i + k <= n ->
  (cnt i + match sw with
           | None => qc_of_nat k
           | Some ws => sum (firstn k (skipn i ws))
           end)%Qc = cnt (i + k).
Proof.
  intros H. unfold cnt. destruct sw_cases as [[ws E]|E]; rewrite E.
  - rewrite firstn_plus, sum_app. reflexivity.
  - rewrite qc_of_nat_add. reflexivity.
Qed.

Lemma cnt_first k :
  match sw with
  | None => qc_of_nat k
  | Some ws => sum (firstn k ws)
  end = cnt k.
Proof. unfold cnt. destruct sw_cases as [[ws E]|E]; rewrite E; reflexivity. Qed.

(** The loop invariant: after the rows before [i], [N] and [u_x] hold the
    statistics of those rows and the heap holds them processed. *)
Lemma batch_loop fuel i acc :
  n - i <= fuel -> 0 < n ->
  (0 < i -> acc = Some (cnt (Nat.min i n), colsum (ncols a) (firstn i segP))) ->
  nbatches_loop (mkView l off n) sw b (range_from fuel i n b) acc (wstate (Nat.min i n))
  = inr (Some (cnt n, colsum (ncols a) segP), wstate n).
Proof.
  revert i acc. induction fuel as [|f IH]; intros i acc Hf Hn Hacc.
  - simpl. rewrite Nat.min_r by lia. rewrite Hacc by lia.
    rewrite Nat.min_r by lia. rewrite firstn_all2 by (rewrite segP_length; lia).
    reflexivity.
  - simpl range_from. destruct (Nat.ltb_spec i n) as [Hi|Hi].
    + rewrite Nat.min_l by lia. simpl nbatches_loop.
      rewrite (bind_inr _ _ _ _ _ (batch_step i Hi)). cbn beta iota.
      set (k := Nat.min (i + b) n - i) in *.
      assert (Hik : i + k = Nat.min (i + b) n) by (unfold k; lia).
      assert (Hrowsk : Forall (fun r => length r = ncols a) (firstn k (skipn i segP)))
        by (apply Forall_firstn', Forall_skipn', segP_rows).
      assert (Hseg : firstn (i + k) segP = firstn (i + b) segP)
        by (rewrite Hik, <- segP_length, firstn_min_length; reflexivity).
      destruct (Nat.eqb_spec i 0) as [Hi0|Hi0].
      * subst i. unfold bind at 1, ret at 1.
        rewrite Hik. apply IH; [lia|exact Hn|]. intros _.
        rewrite <- Hik, <- Hseg. cbn [Nat.add skipn]. rewrite (cnt_first k).
        reflexivity.
      * rewrite (Hacc ltac:(lia)). rewrite Nat.min_l by lia.
        unfold bind at 1, ret at 1.
        rewrite Hik. apply IH; [lia|exact Hn|]. intros _.
        rewrite <- Hik, <- (cnt_chunk i k) by lia.
        rewrite <- colsum_app by exact Hrowsk.
        rewrite <- Hseg, firstn_plus. reflexivity.
    + simpl. rewrite Nat.min_r by lia. unfold ret. rewrite Hacc by lia.
      rewrite Nat.min_r by lia. rewrite firstn_all2 by (rewrite segP_length; lia).
      reflexivity.
Qed.

(** On a non-empty in-bounds view, with no weights or one weight per row,
    the batched E-step gives the same [(N, u_x)] and leaves the same heap as
    the one-pass E-step, for every batch size [b >= 1]. *)
Lemma Estep_batched_agrees_nonempty :
  0 < n ->
  Estep (mkView l off n) None sw (Some b) w = Estep (mkView l off n) None sw None w.
Proof.
  intros Hn.
  assert (Hl := batch_loop n 0 None ltac:(lia) Hn ltac:(lia)).
  rewrite Nat.min_0_l, wstate_0 in Hl.
  unfold Estep, accum_suff_stats, accum_suff_stats_nbatches, xrange. simpl vlen.
  destruct (Nat.eqb_spec b 0) as [|_]; [lia|].
  unfold bind at 1, ret at 1. cbn beta iota.
  rewrite (bind_inr _ _ _ _ _ Hl). cbn beta iota. unfold ret.
  assert (Hall : firstn n segP = segP)
    by (apply firstn_all2; rewrite segP_length; lia).
  destruct sw_cases as [[ws E]|E].
  - assert (Hws : length ws = n) by (apply Hsw; exact E).
    assert (Hscale : scale_rows ws (firstn (vlen (mkView l off n))
                                      (skipn (voff (mkView l off n)) (data a)))
                     = Some segP).
    { simpl. fold seg. unfold scale_rows, segP. rewrite E, Hws, seg_length, Nat.eqb_refl.
      reflexivity. }
    rewrite E.
    rewrite (accum_1batch_weighted w (mkView l off n) a ws segP Ha Hbound Hscale).
    unfold wstate. rewrite Hall. unfold cnt. rewrite E.
    rewrite firstn_all2 by lia. reflexivity.
  - rewrite E. rewrite (accum_1batch_unweighted w (mkView l off n) a Ha). simpl.
    fold seg. rewrite seg_length. rewrite wstate_unweighted by (auto; lia).
    unfold cnt, segP. rewrite E. reflexivity.
Qed.

End BatchAgreement.

Lemma Estep_batched_agrees_nonempty_witness :
  nth_error (heap batch_world) 0 = Some (mkArray 1 [[qz 1]; [qz 2]; [qz 3]]) /\
  0 + 3 <= 3 /\
  Estep (mkView 0 0 3) None (Some [qz 1; qz 2; qz 3]) (Some 2) batch_world
  = Estep (mkView 0 0 3) None (Some [qz 1; qz 2; qz 3]) None batch_world.
Proof.
  assert (H1 : nth_error (heap batch_world) 0 = Some (mkArray 1 [[qz 1]; [qz 2]; [qz 3]]))
    by reflexivity.
  assert (H2 : 0 + 3 <= 3) by lia.
  split; [exact H1|]. split; [exact H2|].
  apply (Estep_batched_agrees_nonempty batch_world 0 0 3 2 _ (Some [qz 1; qz 2; qz 3])
           H1 H2).
  - repeat constructor.
  - lia.
  - intros ws E. injection E as <-. reflexivity.
  - lia.
Defined.

(** * Further properties of the E-step, the ELBO and the scoring script *)

Lemma ro_ret {T} (t : T) : read_only (ret t).
Proof. intros w t' w' H. now inversion H. Qed.

Lemma ro_raise {T} e : read_only (@raise T e).
Proof. intros w t w' H. discriminate H. Qed.

Lemma ro_bind {T U} (m : M T) (k : T -> M U) :
  read_only m -> (forall t, read_only (k t)) -> read_only (bind m k).
Proof.
  intros Hm Hk w u w' H. unfold bind in H.
  destruct (m w) as [e|[t w1]] eqn:E; [discriminate|].
  rewrite (Hk t w1 u w' H). exact (Hm w t w1 E).
Qed.

Lemma ro_read_view v : read_only (read_view v).
Proof.
  intros w t w' H. unfold read_view in H.
  destruct (nth_error (heap w) (vloc v)); inversion H; reflexivity.
Qed.

Lemma ro_1batch x u_x : read_only (accum_suff_stats_1batch x u_x None).
Proof.
  unfold accum_suff_stats_1batch.
  apply ro_bind; [apply ro_read_view|]. intros [d m].
  apply ro_bind; [apply ro_ret|]. intros N.
  apply ro_bind; [apply ro_read_view|]. intros [d2 m2]. apply ro_ret.
Qed.

Lemma ro_loop x b idx acc : read_only (nbatches_loop x None b idx acc).
Proof.
  revert acc. induction idx as [|i1 rest IH]; intros acc; cbn [nbatches_loop option_map].
  - apply ro_ret.
  - apply ro_bind; [apply ro_1batch|]. intros [N_i u_i].
    apply ro_bind; [|intros; apply IH].
    destruct (i1 =? 0); [apply ro_ret|].
    destruct acc as [[N u]|]; [apply ro_ret|apply ro_raise].
Qed.

Lemma ro_Estep x u_x bs : read_only (Estep x u_x None bs).
Proof.
  unfold Estep, accum_suff_stats. destruct u_x, bs; try apply ro_1batch.
  unfold accum_suff_stats_nbatches, xrange.
  apply ro_bind; [destruct (_ =? 0); [apply ro_raise|apply ro_ret]|]. intros idx.
  apply ro_bind; [apply ro_loop|]. intros [p|]; [apply ro_ret|apply ro_raise].
Qed.

(** Without sample weights, every path of the E-step (one-pass, batched,
    precomputed [u_x]) leaves the heap and the object unchanged. *)
Theorem Estep_unweighted_read_only :
  forall (x : view) (u_x : option view) (bs : option nat) (w w' : world) (r : Qc * vec),
    Estep x u_x None bs w = inr (r, w') -> w' = w.
Proof. intros x u_x bs w w' r H. exact (ro_Estep x u_x bs w r w' H). Qed.

Lemma Estep_unweighted_read_only_witness :
  Estep (mkView 0 0 2) None None (Some 1) llk_world
    = inr ((qz 2, [qz 4; qz 6]), llk_world) /\ llk_world = llk_world.
Proof.
  assert (H : Estep (mkView 0 0 2) None None (Some 1) llk_world
              = inr ((qz 2, [qz 4; qz 6]), llk_world)) by reflexivity.
  split; [exact H|]. exact (Estep_unweighted_read_only _ _ _ _ _ _ H).
Defined.

(** [batch_size = 0] (with no precomputed [u_x]): [xrange(0, n, 0)] raises
    [ValueError] before any row is read, whatever [x] and the weights. *)
Theorem Estep_batch_size_zero :
  forall (x : view) (sw : option (list Qc)) (w : world),
    Estep x None sw (Some 0) w = inl ValueError.
Proof. reflexivity. Qed.

(** With a precomputed [u_x], [accum_suff_stats] takes the one-pass path
    whatever [batch_size] is, and [x] is never read: the E-step is the
    one-pass E-step on the [u_x] array itself. *)
Theorem Estep_precomputed_reads_only_u_x :
  forall (x u : view) (sw : option (list Qc)) (bs : option nat),
    Estep x (Some u) sw bs = Estep u None sw None.
Proof. intros x u sw [b|]; reflexivity. Qed.

Lemma loop_weights_prefix x ws b idx acc w :
  nbatches_loop x (Some ws) b idx acc w
  = nbatches_loop x (Some (firstn (vlen x) ws)) b idx acc w.
Proof.
  revert acc w; induction idx as [|i1 rest IH]; intros acc w; [reflexivity|].
  cbn [nbatches_loop option_map].
  rewrite skipn_firstn_comm, firstn_firstn.
  replace (Nat.min (Nat.min (i1 + b) (vlen x) - i1) (vlen x - i1))
    with (Nat.min (i1 + b) (vlen x) - i1) by lia.
  unfold bind at 1 3.
  destruct (accum_suff_stats_1batch _ _ _ w) as [e|[[N_i u_i] w1]]; [reflexivity|].
  unfold bind.
  match goal with
  | |- context [ (if i1 =? 0 then ?t else ?f) w1 ] =>
      destruct ((if i1 =? 0 then t else f) w1) as [e|[acc' w2]]; [reflexivity|apply IH]
  end.
Qed.

(** The batched E-step slices [sample_weights[i1:i2]] chunk by chunk, so
    weights past the last row of [x] are never used: the result (and the heap
    it leaves) is the one obtained with the weights cut to the rows of [x]. *)
Theorem Estep_batched_ignores_extra_weights :
  forall (x : view) (ws : list Qc) (b : nat) (w : world),
    Estep x None (Some ws) (Some b) w = Estep x None (Some (firstn (vlen x) ws)) (Some b) w.
Proof.
  intros x ws b w. unfold Estep, accum_suff_stats, accum_suff_stats_nbatches, bind at 1 3.
  destruct (xrange (vlen x) b w) as [e|[idx w1]]; [reflexivity|].
  unfold bind. rewrite loop_weights_prefix. reflexivity.
Qed.

Lemma scale_rows_ones rows :
  map (fun '(r, wi) => map (fun a => (a * wi)%Qc) r)
      (combine rows (repeat 1%Qc (length rows))) = rows.
Proof.
  induction rows as [|r rows IH]; [reflexivity|]. simpl. rewrite IH. f_equal.
  rewrite <- (map_id r) at 2. apply map_ext. intros. apply Qcmult_1_r.
Qed.

Lemma sum_ones n : sum (repeat 1%Qc n) = qc_of_nat n.
Proof.
  induction n as [|n IH]; [reflexivity|].
  replace (S n) with (1 + n) by reflexivity. rewrite qc_of_nat_add, <- IH.
  reflexivity.
Qed.

(** Unit weights: with [sample_weights] all ones (one per row) the one-pass
    E-step returns the same [(N, u_x)] as without weights and leaves the same
    heap, the in-place multiplication by one changing nothing. *)
Theorem Estep_unit_weights :
  forall (w : world) (x : view) (a : ndarray),
    nth_error (heap w) (vloc x) = Some a ->
    voff x + vlen x <= length (data a) ->
    Estep x None (Some (repeat 1%Qc (vlen x))) None w = Estep x None None None w.
Proof.
  intros w x a H Hb.
  set (rows := firstn (vlen x) (skipn (voff x) (data a))).
  assert (Hlen : length rows = vlen x)
    by (unfold rows; rewrite length_firstn, length_skipn; lia).
  assert (Hs : scale_rows (repeat 1%Qc (vlen x)) rows = Some rows).
  { unfold scale_rows. rewrite repeat_length, Hlen, Nat.eqb_refl, <- Hlen.
    rewrite scale_rows_ones. reflexivity. }
  unfold Estep, accum_suff_stats.
  rewrite (accum_1batch_weighted _ _ _ _ _ H Hb Hs).
  rewrite (accum_1batch_unweighted _ _ _ H). fold rows.
  unfold rows at 2. rewrite splice_same by lia.
  destruct a as [nc d]. simpl. rewrite (set_nth_nth_error _ _ _ H).
  rewrite sum_ones, Hlen. destruct w. reflexivity.
Qed.

Lemma Estep_unit_weights_witness :
  nth_error (heap llk_world) 0 = Some (mkArray 2 [[qz 1; qz 2]; [qz 3; qz 4]]) /\
  0 + 2 <= 2 /\
  Estep (mkView 0 0 2) None (Some [1%Qc; 1%Qc]) None llk_world
  = Estep (mkView 0 0 2) None None None llk_world.
Proof.
  assert (H1 : nth_error (heap llk_world) 0 = Some (mkArray 2 [[qz 1; qz 2]; [qz 3; qz 4]]))
    by reflexivity.
  assert (H2 : 0 + 2 <= 2) by lia.
  split; [exact H1|]. split; [exact H2|].
  exact (Estep_unit_weights llk_world (mkView 0 0 2) _ H1 H2).
Defined.

(** A one-element weight vector [[c]] on [x] with a number of rows other than
    one is broadcast by [u_x *= sample_weights[:, None]]: every row of [x] is
    scaled by [c] in place and [u_x] sums the scaled rows, while
    [N = np.sum([c]) = c] whatever the number of rows. *)
Theorem Estep_single_weight_broadcast :
  forall (w : world) (x : view) (a : ndarray) (c : Qc),
    nth_error (heap w) (vloc x) = Some a ->
    voff x + vlen x <= length (data a) ->
    vlen x <> 1 ->
    let rows' := map (map (fun q => (q * c)%Qc)) (firstn (vlen x) (skipn (voff x) (data a))) in
    Estep x None (Some [c]) None w
    = inr ((c, colsum (ncols a) rows'),
           mkWorld (set_nth (vloc x) (mkArray (ncols a) (splice (voff x) rows' (data a)))
                            (heap w)) (self w)).
Proof.
  intros w x a c H Hb Hn rows'.
  assert (Hs : scale_rows [c] (firstn (vlen x) (skipn (voff x) (data a))) = Some rows').
  { unfold scale_rows. rewrite length_firstn, length_skipn.
    replace (length [c] =? Nat.min (vlen x) (length (data a) - voff x)) with false
      by (symmetry; apply Nat.eqb_neq; simpl; lia).
    reflexivity. }
  unfold Estep, accum_suff_stats.
  rewrite (accum_1batch_weighted _ _ _ _ _ H Hb Hs).
  unfold sum. simpl. rewrite Qcplus_0_r. reflexivity.
Qed.

Lemma Estep_single_weight_broadcast_witness :
  nth_error (heap batch_world) 0 = Some (mkArray 1 [[qz 1]; [qz 2]; [qz 3]]) /\
  0 + 3 <= 3 /\ 3 <> 1 /\
  Estep (mkView 0 0 3) None (Some [qz 2]) None batch_world
  = inr ((qz 2, [qz 12]),
         mkWorld [mkArray 1 [[qz 2]; [qz 4]; [qz 6]]] (self batch_world)).
Proof.
  assert (H1 : nth_error (heap batch_world) 0 = Some (mkArray 1 [[qz 1]; [qz 2]; [qz 3]]))
    by reflexivity.
  assert (H2 : 0 + 3 <= 3) by lia.
  assert (H3 : 3 <> 1) by lia.
  split; [exact H1|]. split; [exact H2|]. split; [exact H3|].
  rewrite (Estep_single_weight_broadcast batch_world (mkView 0 0 3) _ (qz 2) H1 H2 H3).
  reflexivity.
Defined.

(** On the one-pass path, a weight vector whose length is neither the number
    of rows of [x] nor one cannot be broadcast and raises [ValueError]. *)
Theorem Estep_weight_shape_error :
  forall (w : world) (x : view) (a : ndarray) (ws : list Qc),
    nth_error (heap w) (vloc x) = Some a ->
    voff x + vlen x <= length (data a) ->
    length ws <> vlen x -> length ws <> 1 ->
    Estep x None (Some ws) None w = inl ValueError.
Proof.
  intros w x a ws H Hb Hn H1.
  unfold Estep, accum_suff_stats, accum_suff_stats_1batch, compute_suff_stats.
  rewrite (bind_inr _ _ _ _ _ (read_view_ok _ _ _ H)). cbn beta iota.
  unfold scale_rows. rewrite length_firstn, length_skipn.
  replace (length ws =? Nat.min (vlen x) (length (data a) - voff x)) with false
    by (symmetry; apply Nat.eqb_neq; lia).
  destruct ws as [|w0 [|w1 ws]]; [reflexivity| simpl in H1; lia | reflexivity].
Qed.

Lemma Estep_weight_shape_error_witness :
  nth_error (heap llk_world) 0 = Some (mkArray 2 [[qz 1; qz 2]; [qz 3; qz 4]]) /\
  0 + 2 <= 2 /\ 3 <> 2 /\ 3 <> 1 /\
  Estep (mkView 0 0 2) None (Some [qz 1; qz 1; qz 1]) None llk_world = inl ValueError.
Proof.
  assert (H1 : nth_error (heap llk_world) 0 = Some (mkArray 2 [[qz 1; qz 2]; [qz 3; qz 4]]))
    by reflexivity.
  assert (H2 : 0 + 2 <= 2) by lia.
  assert (H3 : length [qz 1; qz 1; qz 1] <> vlen (mkView 0 0 2)) by (simpl; lia).
  assert (H4 : length [qz 1; qz 1; qz 1] <> 1) by (simpl; lia).
  split; [exact H1|]. split; [exact H2|]. split; [exact H3|]. split; [exact H4|].
  exact (Estep_weight_shape_error llk_world (mkView 0 0 2) _ _ H1 H2 H3 H4).
Defined.

Lemma accum_logh_zero x sw : accum_logh x sw = 0%Qc.
Proof.
  destruct sw as [ws|]; [|reflexivity]. simpl. unfold logh.
  induction ws as [|h ws IH]; [reflexivity|]. unfold sum in *. simpl. rewrite IH. ring.
Qed.

(** With a precomputed [u_x], [elbo] never reads [x] and leaves the world
    unchanged; the base-class [logh] is zero, so the default [logh] term
    [accum_logh] is zero with or without weights, and [elbo] returns
    [logh + <u_x, eta> - N * A], or [ValueError] when [len(u_x) <> len(eta)]. *)
Theorem elbo_precomputed_closed_form :
  forall (x : view) (u : vec) (N : Qc) (lh : option Qc) (sw : option (list Qc))
         (bs : option nat) (w : world),
    elbo x (Some u) N lh sw bs w
    = if length u =? length (eta (self w))
      then inr (((match lh with None => 0 | Some l => l end)
                 + dot u (eta (self w)) - N * A (self w))%Qc, w)
      else inl ValueError.
Proof.
  intros. unfold elbo, bind, ret at 1, get_self, inner. rewrite accum_logh_zero.
  destruct (length u =? length (eta (self w))); reflexivity.
Qed.

(** [eval_llk_nat] on a non-empty [x] whose rows are not as long as [eta]
    raises [ValueError] (from [np.inner]). *)
Theorem eval_llk_nat_width_error :
  forall (w : world) (x : view) (a : ndarray),
    nth_error (heap w) (vloc x) = Some a ->
    voff x + vlen x <= length (data a) -> 0 < vlen x ->
    Forall (fun r => length r = ncols a) (data a) ->
    ncols a <> length (eta (self w)) ->
    eval_llk_nat x None w = inl ValueError.
Proof.
  intros w x a H Hb Hn Hrows Hd.
  unfold eval_llk_nat, compute_suff_stats.
  rewrite (bind_inr _ _ _ _ _ (read_view_ok _ _ _ H)). cbn beta iota.
  unfold bind, get_self, inner_mat.
  replace (ncols a =? length (eta (self w))) with false
    by (symmetry; apply Nat.eqb_neq; exact Hd).
  reflexivity.
Qed.

Lemma eval_llk_nat_width_error_witness :
  nth_error (heap width_world) 0 = Some (mkArray 2 [[qz 1; qz 2]; [qz 3; qz 4]]) /\
  0 + 2 <= 2 /\ 0 < 2 /\ 2 <> 1 /\
  eval_llk_nat (mkView 0 0 2) None width_world = inl ValueError.
Proof.
  assert (H1 : nth_error (heap width_world) 0 = Some (mkArray 2 [[qz 1; qz 2]; [qz 3; qz 4]]))
    by reflexivity.
  assert (H2 : 0 + 2 <= 2) by lia.
  assert (H3 : 0 < 2) by lia.
  assert (H4 : 2 <> length (eta (self width_world))) by (simpl; lia).
  split; [exact H1|]. split; [exact H2|]. split; [exact H3|]. split; [exact H4|].
  apply (eval_llk_nat_width_error width_world (mkView 0 0 2) _ H1 H2 H3);
    [repeat constructor | exact H4].
Defined.

Lemma preserves_elbo x u_x N lh sw bs : preserves_self (elbo x u_x N lh sw bs).
Proof.
  unfold elbo. apply preserves_bind.
  - destruct u_x; [apply preserves_ret|apply (preserves_Estep x None sw bs)].
  - intros [N' u]. frame.
Qed.

Lemma preserves_eval_llk_nat x u_x : preserves_self (eval_llk_nat x u_x).
Proof. unfold eval_llk_nat. apply preserves_bind; [apply preserves_read_view|].
  intros [d m]. apply preserves_bind; [apply preserves_get_self|]. intros p.
  apply preserves_bind; [|intros; apply preserves_ret].
  unfold inner_mat. frame. Qed.

(** [Estep], [elbo] and [eval_llk_nat] never change the parameters
    [self.eta] and [self.A], with or without weights or batching. *)
Theorem model_params_only_changed_by_Mstep :
  forall (x : view) (u_x : option view) (sw : option (list Qc)) (bs : option nat)
         (u : option vec) (N : Qc) (lh : option Qc) (w : world),
    (forall r w', Estep x u_x sw bs w = inr (r, w') -> self w' = self w) /\
    (forall r w', elbo x u N lh sw bs w = inr (r, w') -> self w' = self w) /\
    (forall r w', eval_llk_nat x u_x w = inr (r, w') -> self w' = self w).
Proof.
  intros. split; [|split]; intros r w'.
  - apply preserves_Estep.
  - apply preserves_elbo.
  - apply preserves_eval_llk_nat.
Qed.

Lemma model_params_only_changed_by_Mstep_witness :
  Estep (mkView 0 0 2) None (Some [qz 2; qz 3]) None llk_world
    = inr ((qz 5, [qz 11; qz 16]),
           mkWorld [mkArray 2 [[qz 2; qz 4]; [qz 9; qz 12]]] (self llk_world)) /\
  self (mkWorld [mkArray 2 [[qz 2; qz 4]; [qz 9; qz 12]]] (self llk_world))
    = self llk_world.
Proof.
  assert (H : Estep (mkView 0 0 2) None (Some [qz 2; qz 3]) None llk_world
              = inr ((qz 5, [qz 11; qz 16]),
                     mkWorld [mkArray 2 [[qz 2; qz 4]; [qz 9; qz 12]]] (self llk_world)))
    by reflexivity.
  split; [exact H|].
  exact (proj1 (model_params_only_changed_by_Mstep (mkView 0 0 2) None (Some [qz 2; qz 3])
                  None None 0%Qc None llk_world) _ _ H).
Defined.

Lemma string_compare_refl s : String.compare s s = Eq.
Proof.
  induction s as [|c s IH]; [reflexivity|]. simpl.
  unfold Ascii.compare. rewrite N.compare_refl. exact IH.
Qed.

Lemma string_lt_trans s1 s2 s3 :
  String.compare s1 s2 = Lt -> String.compare s2 s3 = Lt -> String.compare s1 s3 = Lt.
Proof.
  revert s2 s3. induction s1 as [|c1 s1 IH]; intros [|c2 s2] [|c3 s3]; simpl;
    try discriminate; auto.
  unfold Ascii.compare.
  destruct (N.compare_spec (Ascii.N_of_ascii c1) (Ascii.N_of_ascii c2)) as [E12|L12|G12];
    try discriminate;
  destruct (N.compare_spec (Ascii.N_of_ascii c2) (Ascii.N_of_ascii c3)) as [E23|L23|G23];
    try discriminate;
  destruct (N.compare_spec (Ascii.N_of_ascii c1) (Ascii.N_of_ascii c3)); try lia;
    eauto.
Qed.

Lemma insert_uniq_hd h s l :
  String.compare h s = Lt ->
  HdRel (fun a b => String.compare a b = Lt) h l ->
  HdRel (fun a b => String.compare a b = Lt) h (Pipeline.insert_uniq s l).
Proof.
  intros Hs Hl. destruct l as [|h0 l]; simpl; [constructor; exact Hs|].
  destruct (String.compare s h0); [exact Hl|constructor; exact Hs|].
  inversion Hl; constructor; assumption.
Qed.

Lemma insert_uniq_sorted s l :
  Sorted (fun a b => String.compare a b = Lt) l ->
  Sorted (fun a b => String.compare a b = Lt) (Pipeline.insert_uniq s l).
Proof.
  induction l as [|h l IH]; intros Hs; simpl; [repeat constructor|].
  inversion Hs as [|h' l' Hl Hhd]; subst.
  destruct (String.compare s h) eqn:C.
  - exact Hs.
  - constructor; [exact Hs|constructor; exact C].
  - constructor; [exact (IH Hl)|]. apply insert_uniq_hd; [|exact Hhd].
    rewrite String.compare_antisym, C. reflexivity.
Qed.

(** The enrollment list [enroll] of [eval_plda] after [np.unique]: strictly
    increasing (hence without duplicates) and with exactly the identities of
    the input. *)
Theorem unique_sorted_distinct :
  forall l : list string,
    Sorted (fun a b => String.compare a b = Lt) (Pipeline.unique l) /\
    NoDup (Pipeline.unique l) /\
    (forall s, In s (Pipeline.unique l) <-> In s l).
Proof.
  intros l.
  assert (Hs : Sorted (fun a b => String.compare a b = Lt) (Pipeline.unique l)).
  { induction l as [|h l IH]; [constructor|]. apply insert_uniq_sorted, IH. }
  split; [exact Hs|split; [|intros s; apply in_unique]].
  apply Sorted_StronglySorted in Hs; [|intros x y z; apply string_lt_trans].
  induction Hs as [|h t _ IH Hall]; constructor; [|exact IH].
  intros Hin. rewrite Forall_forall in Hall. specialize (Hall h Hin).
  rewrite string_compare_refl in Hall. discriminate.
Qed.

Lemma unique_sorted_distinct_witness :
  In "b"%string (Pipeline.unique ["b"; "a"; "b"]%string).
Proof.
  apply (proj2 (proj2 (unique_sorted_distinct ["b"; "a"; "b"]%string)) "b"%string).
  left. reflexivity.
Defined.
